(** * Local-frame rotation of the yellow point

    A verification development for [animation_CircleAndChopperMakeVideo.py].

    The script's only computation is [getNewPosition_yellowPoint], which
    rotates a point about the y-axis of a local frame by conjugating a
    rotation matrix with the frame's pose, and [RotationAboutY], which
    builds that rotation matrix.  Both are embedded below, with the timer
    callback [loop_func] that drives them.

    Number model.  NumPy computes with IEEE double precision.  Here every
    finite double is read as the real number it denotes and every
    arithmetic operation of the script as the exact operation on [R];
    rounding is not modelled.  Two places where NumPy leaves the finite
    reals are kept explicit: an array division by zero does not raise but
    yields [inf] or [nan] (constructor [NonFin]), and [np.linalg.inv]
    may raise [LinAlgError].

    [np.linalg.inv] is not code of the script.  Whether it raises is
    decided by LAPACK's elimination in double precision (an exactly zero
    pivot), which is not the same as the matrix being singular over the
    reals: it can raise on an invertible matrix and return on a singular
    one.  It therefore enters as an interface, class [LinAlg], that fixes
    its result only where elimination is exact or well conditioned. *)

From Stdlib Require Import Reals Lra Psatz ZArith List.
From Stdlib Require Import Floats.PrimFloat Floats.FloatOps Floats.SpecFloat.
Import ListNotations.

Open Scope R_scope.

(** ** NumPy arrays of the shapes the script uses *)

(** A 3x1 array: the point [p]. *)
Record col3 : Type := Col3 { c3_0 : R; c3_1 : R; c3_2 : R }.

(** A 4x1 array: a point in homogeneous coordinates. *)
Record col4 : Type := Col4 { c4_0 : R; c4_1 : R; c4_2 : R; c4_3 : R }.

(** A 4x4 array, entries named by row and column. *)
Record mat4 : Type := Mat4 {
  m00 : R; m01 : R; m02 : R; m03 : R;
  m10 : R; m11 : R; m12 : R; m13 : R;
  m20 : R; m21 : R; m22 : R; m23 : R;
  m30 : R; m31 : R; m32 : R; m33 : R
}.

(** [A @ B] for two 4x4 arrays. *)
Definition matmul (A B : mat4) : mat4 :=
  Mat4
    (m00 A * m00 B + m01 A * m10 B + m02 A * m20 B + m03 A * m30 B)
    (m00 A * m01 B + m01 A * m11 B + m02 A * m21 B + m03 A * m31 B)
    (m00 A * m02 B + m01 A * m12 B + m02 A * m22 B + m03 A * m32 B)
    (m00 A * m03 B + m01 A * m13 B + m02 A * m23 B + m03 A * m33 B)
    (m10 A * m00 B + m11 A * m10 B + m12 A * m20 B + m13 A * m30 B)
    (m10 A * m01 B + m11 A * m11 B + m12 A * m21 B + m13 A * m31 B)
    (m10 A * m02 B + m11 A * m12 B + m12 A * m22 B + m13 A * m32 B)
    (m10 A * m03 B + m11 A * m13 B + m12 A * m23 B + m13 A * m33 B)
    (m20 A * m00 B + m21 A * m10 B + m22 A * m20 B + m23 A * m30 B)
    (m20 A * m01 B + m21 A * m11 B + m22 A * m21 B + m23 A * m31 B)
    (m20 A * m02 B + m21 A * m12 B + m22 A * m22 B + m23 A * m32 B)
    (m20 A * m03 B + m21 A * m13 B + m22 A * m23 B + m23 A * m33 B)
    (m30 A * m00 B + m31 A * m10 B + m32 A * m20 B + m33 A * m30 B)
    (m30 A * m01 B + m31 A * m11 B + m32 A * m21 B + m33 A * m31 B)
    (m30 A * m02 B + m31 A * m12 B + m32 A * m22 B + m33 A * m32 B)
    (m30 A * m03 B + m31 A * m13 B + m32 A * m23 B + m33 A * m33 B).

(** [A @ v] for a 4x4 array and a 4x1 array. *)
Definition matvec (A : mat4) (v : col4) : col4 :=
  Col4
    (m00 A * c4_0 v + m01 A * c4_1 v + m02 A * c4_2 v + m03 A * c4_3 v)
    (m10 A * c4_0 v + m11 A * c4_1 v + m12 A * c4_2 v + m13 A * c4_3 v)
    (m20 A * c4_0 v + m21 A * c4_1 v + m22 A * c4_2 v + m23 A * c4_3 v)
    (m30 A * c4_0 v + m31 A * c4_1 v + m32 A * c4_2 v + m33 A * c4_3 v).

Declare Scope np_scope.
Delimit Scope np_scope with np.
Infix "@" := matmul (at level 40, left associativity) : np_scope.
Infix "@|" := matvec (at level 41, right associativity) : np_scope.
Open Scope np_scope.

Definition eye4 : mat4 :=
  Mat4 1 0 0 0
       0 1 0 0
       0 0 1 0
       0 0 0 1.

(** ** Determinant and adjugate *)

Definition det3 (a b c d e f g h i : R) : R :=
  a * (e * i - f * h) - b * (d * i - f * g) + c * (d * h - e * g).

(** Cofactors of a 4x4 array: signed determinants of the 3x3 minors. *)
Definition cof00 (A : mat4) : R :=
  det3 (m11 A) (m12 A) (m13 A) (m21 A) (m22 A) (m23 A) (m31 A) (m32 A) (m33 A).
Definition cof01 (A : mat4) : R :=
  - det3 (m10 A) (m12 A) (m13 A) (m20 A) (m22 A) (m23 A) (m30 A) (m32 A) (m33 A).
Definition cof02 (A : mat4) : R :=
  det3 (m10 A) (m11 A) (m13 A) (m20 A) (m21 A) (m23 A) (m30 A) (m31 A) (m33 A).
Definition cof03 (A : mat4) : R :=
  - det3 (m10 A) (m11 A) (m12 A) (m20 A) (m21 A) (m22 A) (m30 A) (m31 A) (m32 A).
Definition cof10 (A : mat4) : R :=
  - det3 (m01 A) (m02 A) (m03 A) (m21 A) (m22 A) (m23 A) (m31 A) (m32 A) (m33 A).
Definition cof11 (A : mat4) : R :=
  det3 (m00 A) (m02 A) (m03 A) (m20 A) (m22 A) (m23 A) (m30 A) (m32 A) (m33 A).
Definition cof12 (A : mat4) : R :=
  - det3 (m00 A) (m01 A) (m03 A) (m20 A) (m21 A) (m23 A) (m30 A) (m31 A) (m33 A).
Definition cof13 (A : mat4) : R :=
  det3 (m00 A) (m01 A) (m02 A) (m20 A) (m21 A) (m22 A) (m30 A) (m31 A) (m32 A).
Definition cof20 (A : mat4) : R :=
  det3 (m01 A) (m02 A) (m03 A) (m11 A) (m12 A) (m13 A) (m31 A) (m32 A) (m33 A).
Definition cof21 (A : mat4) : R :=
  - det3 (m00 A) (m02 A) (m03 A) (m10 A) (m12 A) (m13 A) (m30 A) (m32 A) (m33 A).
Definition cof22 (A : mat4) : R :=
  det3 (m00 A) (m01 A) (m03 A) (m10 A) (m11 A) (m13 A) (m30 A) (m31 A) (m33 A).
Definition cof23 (A : mat4) : R :=
  - det3 (m00 A) (m01 A) (m02 A) (m10 A) (m11 A) (m12 A) (m30 A) (m31 A) (m32 A).
Definition cof30 (A : mat4) : R :=
  - det3 (m01 A) (m02 A) (m03 A) (m11 A) (m12 A) (m13 A) (m21 A) (m22 A) (m23 A).
Definition cof31 (A : mat4) : R :=
  det3 (m00 A) (m02 A) (m03 A) (m10 A) (m12 A) (m13 A) (m20 A) (m22 A) (m23 A).
Definition cof32 (A : mat4) : R :=
  - det3 (m00 A) (m01 A) (m03 A) (m10 A) (m11 A) (m13 A) (m20 A) (m21 A) (m23 A).
Definition cof33 (A : mat4) : R :=
  det3 (m00 A) (m01 A) (m02 A) (m10 A) (m11 A) (m12 A) (m20 A) (m21 A) (m22 A).

(** Determinant, expanded along the first row. *)
Definition det4 (A : mat4) : R :=
  m00 A * cof00 A + m01 A * cof01 A + m02 A * cof02 A + m03 A * cof03 A.

(** Adjugate: the transposed cofactor matrix. *)
Definition adjugate (A : mat4) : mat4 :=
  Mat4 (cof00 A) (cof10 A) (cof20 A) (cof30 A)
       (cof01 A) (cof11 A) (cof21 A) (cof31 A)
       (cof02 A) (cof12 A) (cof22 A) (cof32 A)
       (cof03 A) (cof13 A) (cof23 A) (cof33 A).

Definition scale (k : R) (A : mat4) : mat4 :=
  Mat4 (k * m00 A) (k * m01 A) (k * m02 A) (k * m03 A)
       (k * m10 A) (k * m11 A) (k * m12 A) (k * m13 A)
       (k * m20 A) (k * m21 A) (k * m22 A) (k * m23 A)
       (k * m30 A) (k * m31 A) (k * m32 A) (k * m33 A).

(** ** Vocabulary of the specification *)

(** A matrix [B] inverts [A]. *)
Definition inverse_of (A B : mat4) : Prop :=
  A @ B = eye4 /\ B @ A = eye4.

Definition invertible (A : mat4) : Prop := exists B, inverse_of A B.

(** Last row [0 0 0 1]. *)
Definition affine (T : mat4) : Prop :=
  m30 T = 0 /\ m31 T = 0 /\ m32 T = 0 /\ m33 T = 1.

(** Last column [0 0 0 1]. *)
Definition no_translation (T : mat4) : Prop :=
  m03 T = 0 /\ m13 T = 0 /\ m23 T = 0 /\ m33 T = 1.

(** The upper-left 3x3 block has orthonormal columns. *)
Definition orthonormal_block (T : mat4) : Prop :=
  m00 T * m00 T + m10 T * m10 T + m20 T * m20 T = 1 /\
  m01 T * m01 T + m11 T * m11 T + m21 T * m21 T = 1 /\
  m02 T * m02 T + m12 T * m12 T + m22 T * m22 T = 1 /\
  m00 T * m01 T + m10 T * m11 T + m20 T * m21 T = 0 /\
  m00 T * m02 T + m10 T * m12 T + m20 T * m22 T = 0 /\
  m01 T * m02 T + m11 T * m12 T + m21 T * m22 T = 0.

Definition block_det (T : mat4) : R :=
  det3 (m00 T) (m01 T) (m02 T) (m10 T) (m11 T) (m12 T) (m20 T) (m21 T) (m22 T).

(** A pose as the data model describes it: orthonormal rotation block and
    last row [0 0 0 1]. *)
Definition rigid (T : mat4) : Prop :=
  orthonormal_block T /\ affine T.


(** Zero off the diagonal. *)
Definition diagonal (A : mat4) : Prop :=
  m01 A = 0 /\ m02 A = 0 /\ m03 A = 0 /\
  m10 A = 0 /\ m12 A = 0 /\ m13 A = 0 /\
  m20 A = 0 /\ m21 A = 0 /\ m23 A = 0 /\
  m30 A = 0 /\ m31 A = 0 /\ m32 A = 0.

(** ** [np.linalg.inv]

    The result of the library call, [None] standing for the raised
    [LinAlgError], and what is known of it:
    - on a rigid pose the elimination never meets a zero pivot and the
      inverse is returned;
    - on a diagonal matrix the pivots are the diagonal entries themselves:
      the call raises when one of them is zero and returns otherwise.
    Nothing is fixed elsewhere: near singular matrices the outcome depends
    on the rounding of the elimination. *)
Class LinAlg : Type := {
  np_linalg_inv : mat4 -> option mat4;
  inv_rigid :
    forall A, rigid A ->
      exists B, np_linalg_inv A = Some B /\ inverse_of A B;
  inv_diagonal :
    forall A, diagonal A -> det4 A <> 0 -> np_linalg_inv A <> None;
  inv_diagonal_singular :
    forall A, diagonal A -> det4 A = 0 -> np_linalg_inv A = None
}.

(** Inversion in exact arithmetic: it raises exactly on the singular
    matrices.  One behaviour the interface admits. *)
Definition exact_inv (A : mat4) : option mat4 :=
  if Req_EM_T (det4 A) 0 then None
  else Some (scale (/ det4 A) (adjugate A)).

(** A pose that is invertible over the reals (its determinant is
    [- 2^-54]) and on which elimination in double precision meets an
    exactly zero pivot: the entry [m11] is the double nearest to 1/3. *)
Definition third_double : R := 6004799503160661 / 18014398509481984.

Definition T_pivot : mat4 :=
  Mat4 3 1            0 0
       1 third_double 0 0
       0 0            1 0
       0 0            0 1.

(** The second pivot of the elimination on a block [[a, b], [c, d]] in
    double precision, as LAPACK computes it: the multiplier is [c] scaled
    by the reciprocal of the first pivot [a]. *)
Definition second_pivot_binary64 (a b c d : float) : float :=
  (d - (c * (1 / a)) * b)%float.

(** The real number a finite double denotes. *)
Definition SF2R (f : spec_float) : R :=
  match f with
  | S754_finite s m e =>
      (if s then - IZR (Z.pos m) else IZR (Z.pos m)) * powerRZ 2 e
  | _ => 0
  end.

(** ** Array division

    [a / b] on arrays follows IEEE: a zero divisor gives [inf] or [nan]
    (with a warning, not an exception). *)

Inductive npfloat : Type :=
| Fin (r : R)
| NonFin.

Definition np_div (a b : R) : npfloat :=
  if Req_EM_T b 0 then NonFin else Fin (a / b).

(** What a call does: raise, or return a 3x1 array. *)
Inductive outcome : Type :=
| Raises_LinAlgError
| Returns (x y z : npfloat).

Definition Returns_fin (q : col3) : outcome :=
  Returns (Fin (c3_0 q)) (Fin (c3_1 q)) (Fin (c3_2 q)).

(** ** The script's functions *)

(** [RotationAboutY(theta)], lines 21-43. *)
Definition RotationAboutY (theta : R) : mat4 :=
  Mat4 (cos theta)     0  (sin theta)  0
       0               1  0            0
       (- sin theta)   0  (cos theta)  0
       0               0  0            1.

(** [np.block([[p], [1]])]: the point in homogeneous coordinates. *)
Definition homogeneous (p : col3) : col4 :=
  Col4 (c3_0 p) (c3_1 p) (c3_2 p) 1.

(** [np.array([p[0]/p[3], p[1]/p[3], p[2]/p[3]])]. *)
Definition cartesian (h : col4) : outcome :=
  Returns (np_div (c4_0 h) (c4_3 h))
          (np_div (c4_1 h) (c4_3 h))
          (np_div (c4_2 h) (c4_3 h)).

(** [getNewPosition_yellowPoint(p, angle, T_01)], lines 45-90. *)
Definition getNewPosition_yellowPoint {la : LinAlg}
  (p : col3) (angle : R) (T_01 : mat4) : outcome :=
  let p_tilde := homogeneous p in
  let R_y := RotationAboutY angle in
  match np_linalg_inv T_01 with
  | None => Raises_LinAlgError
  | Some T_10 =>
      let T_Motion := T_01 @ R_y @ T_10 in
      let p' := T_Motion @| p_tilde in
      cartesian p'
  end.

(** The script's data, lines 137-161. *)
Definition p_start : col3 := Col3 (-30) (-10) (-20).

Definition T_01_script : mat4 :=
  Mat4 1 0 0 (-40)
       0 1 0 0
       0 0 1 (-20)
       0 0 0 1.

Definition theta_script : R := PI / 20.

(** [loop_func] run [n] times on the global [p]: each tick replaces [p] by
    the function's result.  An exception aborts the run; a non-finite
    array stays non-finite under further ticks, every entry of
    [T_Motion @ p_tilde] being a sum over all entries of [p_tilde]. *)
Fixpoint ticks {la : LinAlg}
  (n : nat) (p : col3) (theta : R) (T_01 : mat4) : outcome :=
  match n with
  | O => Returns_fin p
  | S k =>
      match getNewPosition_yellowPoint p theta T_01 with
      | Returns (Fin x) (Fin y) (Fin z) => ticks k (Col3 x y z) theta T_01
      | other => other
      end
  end.

(** ** The specification's pipeline *)

(** Spec side of the contract: go to the local frame with the inverse
    pose, rotate there, come back with the pose, then divide by the
    homogeneous scale component. *)
Definition conjugation_pipeline (p : col3) (angle : R) (T T_inv : mat4)
  : outcome :=
  let local := T_inv @| homogeneous p in
  let rotated := RotationAboutY angle @| local in
  let global := T @| rotated in
  cartesian global.

(** The Cartesian part of a homogeneous point whose scale component is 1. *)
Definition drop_w (h : col4) : col3 :=
  Col3 (c4_0 h) (c4_1 h) (c4_2 h).

(** The matrix [T_Motion] of line 80, for a pose and a candidate inverse. *)
Definition motion (angle : R) (T T_inv : mat4) : mat4 :=
  T @ RotationAboutY angle @ T_inv.

(** The plain y-axis rotation of a point about the global origin. *)
Definition rotate_y (theta : R) (p : col3) : col3 :=
  Col3 (cos theta * c3_0 p + sin theta * c3_2 p)
       (c3_1 p)
       (- sin theta * c3_0 p + cos theta * c3_2 p).


(** The homogeneous vector the specification's pipeline arrives at before
    its final division, written out from the specification alone: the
    point with a 1 appended, the inverse pose, the rotation by the matrix
    the specification prints, then the pose. *)
Definition spec_rotation (angle : R) : mat4 :=
  Mat4 (cos angle)   0 (sin angle) 0
       0             1 0           0
       (- sin angle) 0 (cos angle) 0
       0             0 0           1.

Definition spec_conjugate (p : col3) (angle : R) (T T_inv : mat4) : col4 :=
  T @| spec_rotation angle @| T_inv @| Col4 (c3_0 p) (c3_1 p) (c3_2 p) 1.

(** The specification's last step: the first three components divided by
    the fourth. *)
Definition spec_divide (h : col4) : col3 :=
  Col3 (c4_0 h / c4_3 h) (c4_1 h / c4_3 h) (c4_2 h / c4_3 h).


(** The rows of a 4x4 array, as the nested list NumPy prints. *)
Definition rows (A : mat4) : list (list R) :=
  [ [m00 A; m01 A; m02 A; m03 A];
    [m10 A; m11 A; m12 A; m13 A];
    [m20 A; m21 A; m22 A; m23 A];
    [m30 A; m31 A; m32 A; m33 A] ].

(** The rotation matrix as the specification writes it out. *)
Definition standard_rotation_y (theta : R) : list (list R) :=
  [ [cos theta;   0; sin theta; 0];
    [0;           1; 0;         0];
    [- sin theta; 0; cos theta; 0];
    [0;           0; 0;         1] ].

(** Unit vectors of the three axes, in homogeneous coordinates. *)
Definition axis_x : col4 := Col4 1 0 0 1.
Definition axis_y : col4 := Col4 0 1 0 1.
Definition axis_z : col4 := Col4 0 0 1 1.

(** The inverse of the script's pose: the opposite translation. *)
Definition T_10_script : mat4 :=
  Mat4 1 0 0 40
       0 1 0 0
       0 0 1 20
       0 0 0 1.


(** An invertible pose that is not affine: its last row is [1 0 0 1]. *)
Definition T_projective : mat4 :=
  Mat4 1 0 0 0
       0 1 0 0
       0 0 1 0
       1 0 0 1.

(** A singular pose: it flattens the x-axis. *)
Definition T_flat : mat4 :=
  Mat4 0 0 0 0
       0 1 0 0
       0 0 1 0
       0 0 0 1.

(** ** The timer callback and the recorded video *)

(** What the callback reads and writes: the global [p], the position
    handed to the yellow point by [yellowPoint.pos(p)], and the frames
    appended by [video.add_frame()].  A frame is recorded as the position
    the yellow point was drawn at. *)
Record scene : Type := Scene {
  global_p : col3;
  yellowPoint_pos : col3;
  video_frames : list col3
}.

(** One call of the callback: it raises (before any of the three updates),
    or completes with the updated scene, or stores a non-finite array,
    which leaves the finite scenes described here. *)
Inductive tick : Type :=
| Tick_raises
| Tick_nonfinite
| Tick_done (s : scene).

(** [loop_func(event)], lines 92-112, with the globals [theta] and [T_01]
    as arguments: new position, then [yellowPoint.pos], [plt.render] and
    [video.add_frame] in that order. *)
Definition loop_func {la : LinAlg}
  (theta : R) (T_01 : mat4) (s : scene) : tick :=
  match getNewPosition_yellowPoint (global_p s) theta T_01 with
  | Raises_LinAlgError => Tick_raises
  | Returns (Fin x) (Fin y) (Fin z) =>
      let p := Col3 x y z in
      Tick_done (Scene p p (video_frames s ++ [p]))
  | Returns _ _ _ => Tick_nonfinite
  end.

(** The timer firing [n] times. *)
Fixpoint run {la : LinAlg}
  (n : nat) (theta : R) (T_01 : mat4) (s : scene) : tick :=
  match n with
  | O => Tick_done s
  | S k =>
      match loop_func theta T_01 s with
      | Tick_done s' => run k theta T_01 s'
      | other => other
      end
  end.

(** The scene when the timer is created, lines 137-142: no frame yet. *)
Definition scene_start : scene := Scene p_start p_start [].

(** The ends of the green line that shows the local y-axis, line 132. *)
Definition startPoint : col3 := Col3 (-40) 0 (-20).
Definition endPoint : col3 := Col3 (-40) (-20) (-20).

(** ** Geometry vocabulary *)

(** The action of a matrix on a Cartesian point. *)
Definition act (M : mat4) (p : col3) : col3 :=
  drop_w (M @| homogeneous p).

(** Squared Euclidean distance of two points. *)
Definition dist2 (p q : col3) : R :=
  (c3_0 p - c3_0 q) * (c3_0 p - c3_0 q) +
  (c3_1 p - c3_1 q) * (c3_1 p - c3_1 q) +
  (c3_2 p - c3_2 q) * (c3_2 p - c3_2 q).

(** The closed form of the inverse of a rigid pose: the transposed
    rotation block and the translation rotated back and negated. *)
Definition rigid_inverse (T : mat4) : mat4 :=
  Mat4 (m00 T) (m10 T) (m20 T)
         (- (m00 T * m03 T + m10 T * m13 T + m20 T * m23 T))
       (m01 T) (m11 T) (m21 T)
         (- (m01 T * m03 T + m11 T * m13 T + m21 T * m23 T))
       (m02 T) (m12 T) (m22 T)
         (- (m02 T * m03 T + m12 T * m13 T + m22 T * m23 T))
       0 0 0 1.

(** A pose with identity orientation and origin [c], the shape of the
    script's [T_01] (lines 147-154). *)
Definition translation (c : col3) : mat4 :=
  Mat4 1 0 0 (c3_0 c)
       0 1 0 (c3_1 c)
       0 0 1 (c3_2 c)
       0 0 0 1.

(** ** Matrix algebra *)

Lemma Mat4_eq (a0 a1 a2 a3 a4 a5 a6 a7 a8 a9 a10 a11 a12 a13 a14 a15
               b0 b1 b2 b3 b4 b5 b6 b7 b8 b9 b10 b11 b12 b13 b14 b15 : R) :
  a0 = b0 -> a1 = b1 -> a2 = b2 -> a3 = b3 ->
  a4 = b4 -> a5 = b5 -> a6 = b6 -> a7 = b7 ->
  a8 = b8 -> a9 = b9 -> a10 = b10 -> a11 = b11 ->
  a12 = b12 -> a13 = b13 -> a14 = b14 -> a15 = b15 ->
  Mat4 a0 a1 a2 a3 a4 a5 a6 a7 a8 a9 a10 a11 a12 a13 a14 a15 =
  Mat4 b0 b1 b2 b3 b4 b5 b6 b7 b8 b9 b10 b11 b12 b13 b14 b15.
Proof. intros; subst; reflexivity. Qed.

Lemma Col4_eq (a0 a1 a2 a3 b0 b1 b2 b3 : R) :
  a0 = b0 -> a1 = b1 -> a2 = b2 -> a3 = b3 ->
  Col4 a0 a1 a2 a3 = Col4 b0 b1 b2 b3.
Proof. intros; subst; reflexivity. Qed.

Ltac unfold_np :=
  unfold matmul, matvec, scale, adjugate, eye4, det4,
    cof00, cof01, cof02, cof03, cof10, cof11, cof12, cof13,
    cof20, cof21, cof22, cof23, cof30, cof31, cof32, cof33, det3;
  cbn [m00 m01 m02 m03 m10 m11 m12 m13 m20 m21 m22 m23 m30 m31 m32 m33
       c4_0 c4_1 c4_2 c4_3 c3_0 c3_1 c3_2].

Ltac mat_ring :=
  unfold_np; first [apply Mat4_eq | apply Col4_eq]; ring.

(** The same on explicit matrices, evaluated by value. *)
Ltac compute_np :=
  cbv [matmul matvec scale eye4
       m00 m01 m02 m03 m10 m11 m12 m13 m20 m21 m22 m23 m30 m31 m32 m33
       c4_0 c4_1 c4_2 c4_3 c3_0 c3_1 c3_2].

Lemma mat4_eta (A : mat4) :
  A = Mat4 (m00 A) (m01 A) (m02 A) (m03 A) (m10 A) (m11 A) (m12 A) (m13 A)
           (m20 A) (m21 A) (m22 A) (m23 A) (m30 A) (m31 A) (m32 A) (m33 A).
Proof. destruct A; reflexivity. Qed.

Lemma matmul_assoc (A B C : mat4) : (A @ B) @ C = A @ (B @ C).
Proof. mat_ring. Qed.

Lemma matmul_eye_l (A : mat4) : eye4 @ A = A.
Proof. destruct A; mat_ring. Qed.

Lemma matmul_eye_r (A : mat4) : A @ eye4 = A.
Proof. destruct A; mat_ring. Qed.

Lemma matvec_eye (v : col4) : eye4 @| v = v.
Proof. destruct v; mat_ring. Qed.

Lemma matvec_matmul (A B : mat4) (v : col4) : (A @ B) @| v = A @| B @| v.
Proof. mat_ring. Qed.

Lemma matmul_adjugate_r (A : mat4) : A @ adjugate A = scale (det4 A) eye4.
Proof. mat_ring. Qed.

Lemma matmul_adjugate_l (A : mat4) : adjugate A @ A = scale (det4 A) eye4.
Proof. mat_ring. Qed.

Lemma matmul_scale_r (k : R) (A B : mat4) : A @ scale k B = scale k (A @ B).
Proof. mat_ring. Qed.

Lemma matmul_scale_l (k : R) (A B : mat4) : scale k A @ B = scale k (A @ B).
Proof. mat_ring. Qed.

Lemma scale_scale (k l : R) (A : mat4) : scale k (scale l A) = scale (k * l) A.
Proof. mat_ring. Qed.

Lemma scale_1 (A : mat4) : scale 1 A = A.
Proof. destruct A; mat_ring. Qed.

Lemma det4_eye : det4 eye4 = 1.
Proof. unfold_np; ring. Qed.

Lemma det4_matmul (A B : mat4) : det4 (A @ B) = det4 A * det4 B.
Proof. unfold_np; ring. Qed.

(** ** Inverses and [np.linalg.inv] *)

Lemma inverse_unique (A B C : mat4) :
  inverse_of A B -> inverse_of A C -> B = C.
Proof.
  intros [_ HBA] [HAC _].
  rewrite <- (matmul_eye_r B), <- HAC, <- matmul_assoc, HBA.
  apply matmul_eye_l.
Qed.

Lemma det4_right_inverse (A B : mat4) : A @ B = eye4 -> det4 A <> 0.
Proof.
  intros HAB Hz.
  pose proof (det4_matmul A B) as Hd.
  rewrite HAB, det4_eye, Hz in Hd. lra.
Qed.

Lemma adjugate_inverse (A : mat4) :
  det4 A <> 0 -> inverse_of A (scale (/ det4 A) (adjugate A)).
Proof.
  intros Hd; split.
  - rewrite matmul_scale_r, matmul_adjugate_r, scale_scale.
    rewrite Rinv_l by assumption. apply scale_1.
  - rewrite matmul_scale_l, matmul_adjugate_l, scale_scale.
    rewrite Rinv_l by assumption. apply scale_1.
Qed.

Lemma invertible_det4 (A : mat4) : invertible A <-> det4 A <> 0.
Proof.
  split.
  - intros [B [HAB _]]. exact (det4_right_inverse A B HAB).
  - intros Hd. eexists. exact (adjugate_inverse A Hd).
Qed.

Lemma exact_inv_Some (A B : mat4) :
  exact_inv A = Some B <-> inverse_of A B.
Proof.
  unfold exact_inv.
  destruct (Req_EM_T (det4 A) 0) as [Hz | Hnz]; split.
  - discriminate.
  - intros [HAB _]. exfalso. exact (det4_right_inverse A B HAB Hz).
  - intros H; injection H as <-. exact (adjugate_inverse A Hnz).
  - intros HB. f_equal.
    exact (inverse_unique A _ _ (adjugate_inverse A Hnz) HB).
Qed.

Lemma exact_inv_None (A : mat4) :
  exact_inv A = None <-> ~ invertible A.
Proof.
  rewrite invertible_det4. unfold exact_inv.
  destruct (Req_EM_T (det4 A) 0) as [Hz | Hnz]; split; intros H;
    try reflexivity; try discriminate; tauto.
Qed.

(** ** Affine and rigid matrices *)

Lemma affine_matmul (A B : mat4) : affine A -> affine B -> affine (A @ B).
Proof.
  unfold affine; intros (a0 & a1 & a2 & a3) (b0 & b1 & b2 & b3).
  unfold_np. rewrite a0, a1, a2, a3, b0, b1, b2, b3.
  repeat split; ring.
Qed.

Lemma affine_inverse (A B : mat4) : affine A -> inverse_of A B -> affine B.
Proof.
  unfold affine; intros (a0 & a1 & a2 & a3) [HAB _].
  pose proof (f_equal m30 HAB) as H0. pose proof (f_equal m31 HAB) as H1.
  pose proof (f_equal m32 HAB) as H2. pose proof (f_equal m33 HAB) as H3.
  revert H0 H1 H2 H3. unfold_np. rewrite a0, a1, a2, a3.
  intros H0 H1 H2 H3. repeat split; lra.
Qed.

Lemma affine_RotationAboutY (theta : R) : affine (RotationAboutY theta).
Proof. unfold affine, RotationAboutY; cbn; auto. Qed.

Lemma affine_matvec (M : mat4) (p : col3) :
  affine M -> M @| homogeneous p = homogeneous (drop_w (M @| homogeneous p)).
Proof.
  unfold affine; intros (a0 & a1 & a2 & a3).
  unfold homogeneous, drop_w. unfold_np. rewrite a0, a1, a2, a3.
  apply Col4_eq; ring.
Qed.

Lemma det4_affine (T : mat4) : affine T -> det4 T = block_det T.
Proof.
  unfold affine, block_det; intros (a0 & a1 & a2 & a3).
  unfold_np. rewrite a0, a1, a2, a3. ring.
Qed.

Lemma block_det_orthonormal (T : mat4) :
  orthonormal_block T -> block_det T * block_det T = 1.
Proof.
  intros (h00 & h11 & h22 & h01 & h02 & h12).
  transitivity
    (det3 (m00 T * m00 T + m10 T * m10 T + m20 T * m20 T)
          (m00 T * m01 T + m10 T * m11 T + m20 T * m21 T)
          (m00 T * m02 T + m10 T * m12 T + m20 T * m22 T)
          (m00 T * m01 T + m10 T * m11 T + m20 T * m21 T)
          (m01 T * m01 T + m11 T * m11 T + m21 T * m21 T)
          (m01 T * m02 T + m11 T * m12 T + m21 T * m22 T)
          (m00 T * m02 T + m10 T * m12 T + m20 T * m22 T)
          (m01 T * m02 T + m11 T * m12 T + m21 T * m22 T)
          (m02 T * m02 T + m12 T * m12 T + m22 T * m22 T)).
  - unfold block_det, det3. ring.
  - rewrite h00, h11, h22, h01, h02, h12. unfold det3. ring.
Qed.

Lemma rigid_det4 (T : mat4) : rigid T -> det4 T <> 0.
Proof.
  intros [Ho Ha] Hz.
  pose proof (block_det_orthonormal T Ho) as Hsq.
  rewrite <- (det4_affine T Ha), Hz in Hsq. lra.
Qed.

Lemma rigid_invertible (T : mat4) : rigid T -> invertible T.
Proof. intros H. apply invertible_det4, rigid_det4, H. Qed.

(** ** Rotations about the y-axis *)

Lemma RotationAboutY_0 : RotationAboutY 0 = eye4.
Proof.
  unfold RotationAboutY, eye4. rewrite cos_0, sin_0.
  apply Mat4_eq; ring.
Qed.

Lemma RotationAboutY_plus (a b : R) :
  RotationAboutY a @ RotationAboutY b = RotationAboutY (a + b).
Proof.
  unfold RotationAboutY. unfold_np. rewrite cos_plus, sin_plus.
  apply Mat4_eq; ring.
Qed.

Lemma RotationAboutY_period (a : R) (k : Z) :
  RotationAboutY (a + 2 * IZR k * PI) = RotationAboutY a.
Proof.
  assert (Hnat : forall (x : R) (n : nat),
             cos (x + 2 * INR n * PI) = cos x /\
             sin (x + 2 * INR n * PI) = sin x).
  { intros x n; split; [apply cos_period | apply sin_period]. }
  assert (Hcs : cos (a + 2 * IZR k * PI) = cos a /\
                sin (a + 2 * IZR k * PI) = sin a).
  { destruct (Z_le_gt_dec 0 k) as [Hk | Hk].
    - rewrite <- (Z2Nat.id k Hk), <- INR_IZR_INZ. apply Hnat.
    - assert (Hm : (0 <= - k)%Z) by lia.
      destruct (Hnat (a + 2 * IZR k * PI) (Z.to_nat (- k))) as [Hc Hs].
      rewrite INR_IZR_INZ, (Z2Nat.id _ Hm), opp_IZR in Hc, Hs.
      replace (a + 2 * IZR k * PI + 2 * - IZR k * PI) with a in Hc, Hs by ring.
      split; congruence. }
  destruct Hcs as [Hc Hs]. unfold RotationAboutY. rewrite Hc, Hs. reflexivity.
Qed.


Lemma rigid_RotationAboutY (theta : R) : rigid (RotationAboutY theta).
Proof.
  pose proof (sin2_cos2 theta) as Hsc. unfold Rsqr in Hsc.
  split; [| apply affine_RotationAboutY].
  unfold orthonormal_block, RotationAboutY; cbn. repeat split; nra.
Qed.

(** ** The interface of [np.linalg.inv] *)

Lemma det4_diagonal (A : mat4) :
  diagonal A -> det4 A = m00 A * m11 A * m22 A * m33 A.
Proof.
  intros (e01 & e02 & e03 & e10 & e12 & e13 & e20 & e21 & e23 &
          e30 & e31 & e32).
  unfold_np. rewrite e01, e02, e03, e10, e12, e13, e20, e21, e23, e30, e31, e32.
  ring.
Qed.

Lemma exact_inv_invertible (A : mat4) :
  invertible A -> exists B, exact_inv A = Some B /\ inverse_of A B.
Proof.
  intros [B HB]. exists B. split; [| exact HB].
  exact (proj2 (exact_inv_Some A B) HB).
Qed.

Lemma exact_inv_det4 (A : mat4) : exact_inv A = None <-> det4 A = 0.
Proof.
  rewrite exact_inv_None, invertible_det4.
  destruct (Req_EM_T (det4 A) 0); tauto.
Qed.

Lemma exact_inv_singular (A : mat4) : exact_inv A = None -> det4 A = 0.
Proof. apply exact_inv_det4. Qed.

(** Exact arithmetic meets the interface. *)
Definition exact_linalg : LinAlg := {|
  np_linalg_inv := exact_inv;
  inv_rigid := fun A Hr => exact_inv_invertible A (rigid_invertible A Hr);
  inv_diagonal :=
    fun A _ Hd E => Hd (exact_inv_singular A E);
  inv_diagonal_singular := fun A _ Hd => proj2 (exact_inv_det4 A) Hd
|}.

Lemma mat4_eq_dec (A B : mat4) : {A = B} + {A <> B}.
Proof. decide equality; apply Req_EM_T. Qed.

Lemma third_double_defect : 3 * third_double - 1 = - / 18014398509481984.
Proof. unfold third_double. field. Qed.

Lemma det4_T_pivot : det4 T_pivot = - / 18014398509481984.
Proof.
  rewrite <- third_double_defect. unfold T_pivot. unfold_np. ring.
Qed.

Lemma invertible_T_pivot : invertible T_pivot.
Proof. apply invertible_det4. rewrite det4_T_pivot. lra. Qed.

Lemma not_rigid_T_pivot : ~ rigid T_pivot.
Proof. unfold rigid, orthonormal_block, T_pivot; cbn. intros [[H _] _]. lra. Qed.

Lemma not_diagonal_T_pivot : ~ diagonal T_pivot.
Proof. unfold diagonal, T_pivot; cbn. intros [H _]. lra. Qed.

(** In double precision the entry [m11] of [T_pivot] is the quotient
    [1 / 3], and the second pivot of the elimination is exactly zero. *)
Lemma binary64_third : SF2R (Prim2SF (1 / 3)%float) = third_double.
Proof.
  replace (Prim2SF (1 / 3)%float)
    with (S754_finite false 6004799503160661 (-54)) by (vm_compute; reflexivity).
  unfold SF2R, third_double, powerRZ. simpl pow. field.
Qed.

Lemma binary64_zero_pivot :
  PrimFloat.eqb (second_pivot_binary64 3 1 1 (1 / 3)) 0%float = true.
Proof. vm_compute. reflexivity. Qed.

(** Inversion that follows the elimination in double precision on
    [T_pivot], where it raises, and exact arithmetic elsewhere.  A second
    behaviour the interface admits. *)
Definition pivoting_inv (A : mat4) : option mat4 :=
  if mat4_eq_dec A T_pivot then None else exact_inv A.

Lemma pivoting_inv_other (A : mat4) :
  A <> T_pivot -> pivoting_inv A = exact_inv A.
Proof.
  intros Hne. unfold pivoting_inv.
  destruct (mat4_eq_dec A T_pivot) as [E | _]; [contradiction | reflexivity].
Qed.

Definition pivoting_linalg : LinAlg := {|
  np_linalg_inv := pivoting_inv;
  inv_rigid := fun A Hr =>
    eq_ind_r (fun o => exists B, o = Some B /\ inverse_of A B)
      (exact_inv_invertible A (rigid_invertible A Hr))
      (pivoting_inv_other A
         (fun E => not_rigid_T_pivot (eq_ind A rigid Hr _ E)));
  inv_diagonal := fun A Hg Hd =>
    eq_ind_r (fun o => o <> None)
      (fun E => Hd (exact_inv_singular A E))
      (pivoting_inv_other A
         (fun E => not_diagonal_T_pivot (eq_ind A diagonal Hg _ E)));
  inv_diagonal_singular := fun A Hg Hd =>
    eq_ind_r (fun o => o = None)
      (proj2 (exact_inv_det4 A) Hd)
      (pivoting_inv_other A
         (fun E => not_diagonal_T_pivot (eq_ind A diagonal Hg _ E)))
|}.

Lemma np_linalg_inv_rigid {la : LinAlg} (A B : mat4) :
  rigid A -> inverse_of A B -> np_linalg_inv A = Some B.
Proof.
  intros Hr HB. destruct (inv_rigid A Hr) as (B' & E & HB').
  rewrite E. f_equal. exact (inverse_unique A B' B HB' HB).
Qed.


(** ** The motion matrix *)

Lemma motion_0 (T B : mat4) : inverse_of T B -> motion 0 T B = eye4.
Proof.
  intros [HTB _]. unfold motion.
  rewrite RotationAboutY_0, matmul_eye_r. exact HTB.
Qed.

Lemma motion_plus (a b : R) (T B : mat4) :
  inverse_of T B -> motion a T B @ motion b T B = motion (a + b) T B.
Proof.
  intros [_ HBT]. unfold motion.
  rewrite <- RotationAboutY_plus.
  rewrite !matmul_assoc.
  rewrite <- (matmul_assoc B T), HBT, matmul_eye_l.
  reflexivity.
Qed.

Lemma affine_motion (a : R) (T B : mat4) :
  affine T -> inverse_of T B -> affine (motion a T B).
Proof.
  intros Ha Hinv. unfold motion.
  apply affine_matmul; [apply affine_matmul|]; auto using affine_RotationAboutY.
  exact (affine_inverse T B Ha Hinv).
Qed.

Lemma np_div_1 (a : R) : np_div a 1 = Fin a.
Proof.
  unfold np_div. destruct (Req_EM_T 1 0) as [H | _]; [lra|].
  f_equal. field.
Qed.

Lemma cartesian_homogeneous (q : col3) :
  cartesian (homogeneous q) = Returns_fin q.
Proof.
  unfold cartesian, homogeneous, Returns_fin; cbn.
  rewrite !np_div_1. reflexivity.
Qed.


(** When the inversion returns the inverse of an affine pose, the call
    returns the Cartesian part of [T_Motion @ p_tilde], all entries
    finite. *)
Lemma getNewPosition_returns {la : LinAlg} (p : col3) (angle : R) (T B : mat4) :
  affine T -> np_linalg_inv T = Some B -> inverse_of T B ->
  getNewPosition_yellowPoint p angle T =
  Returns_fin (drop_w (motion angle T B @| homogeneous p)).
Proof.
  intros Ha E Hinv. unfold getNewPosition_yellowPoint. rewrite E.
  fold (motion angle T B).
  rewrite (affine_matvec _ p (affine_motion angle T B Ha Hinv)) at 1.
  apply cartesian_homogeneous.
Qed.

Lemma getNewPosition_rigid {la : LinAlg} (p : col3) (angle : R) (T B : mat4) :
  rigid T -> inverse_of T B ->
  getNewPosition_yellowPoint p angle T =
  Returns_fin (drop_w (motion angle T B @| homogeneous p)).
Proof.
  intros Hr Hinv.
  exact (getNewPosition_returns p angle T B (proj2 Hr)
           (np_linalg_inv_rigid T B Hr Hinv) Hinv).
Qed.

Lemma ticks_rigid {la : LinAlg} (n : nat) (p : col3) (theta : R) (T B : mat4) :
  rigid T -> inverse_of T B ->
  ticks n p theta T =
  Returns_fin (drop_w (motion (INR n * theta) T B @| homogeneous p)).
Proof.
  intros Hr Hinv. pose proof (proj2 Hr) as Ha. revert p.
  induction n as [| n IH]; intros p.
  - cbn [ticks INR]. rewrite Rmult_0_l, (motion_0 T B Hinv), matvec_eye.
    destruct p; reflexivity.
  - cbn [ticks].
    rewrite (getNewPosition_rigid p theta T B Hr Hinv).
    unfold Returns_fin at 1.
    set (q := drop_w (motion theta T B @| homogeneous p)).
    replace (Col3 (c3_0 q) (c3_1 q) (c3_2 q)) with q
      by (destruct q; reflexivity).
    rewrite IH. subst q.
    rewrite <- (affine_matvec _ p (affine_motion theta T B Ha Hinv)).
    rewrite <- matvec_matmul, (motion_plus _ _ T B Hinv).
    rewrite S_INR.
    replace ((INR n + 1) * theta) with (INR n * theta + theta) by ring.
    reflexivity.
Qed.

(** The call raises exactly when the inversion does. *)
Lemma getNewPosition_raises_iff {la : LinAlg}
  (p : col3) (angle : R) (T_01 : mat4) :
  getNewPosition_yellowPoint p angle T_01 = Raises_LinAlgError <->
  np_linalg_inv T_01 = None.
Proof.
  unfold getNewPosition_yellowPoint.
  destruct (np_linalg_inv T_01) as [T_10 |]; split; intros H;
    try reflexivity; discriminate.
Qed.

(** ** The script's pose *)

Ltac solve_rigid :=
  unfold rigid, orthonormal_block, affine; cbn; repeat split; lra.

Ltac solve_inverse :=
  unfold inverse_of, matmul, eye4; cbn; split; apply Mat4_eq; lra.

Lemma rigid_T_01_script : rigid T_01_script.
Proof. solve_rigid. Qed.

Lemma inverse_T_01_script : inverse_of T_01_script T_10_script.
Proof. solve_inverse. Qed.


Ltac solve_diagonal := unfold diagonal; cbn; repeat split; reflexivity.

Lemma diagonal_T_flat : diagonal T_flat.
Proof. solve_diagonal. Qed.

Lemma det4_T_flat : det4 T_flat = 0.
Proof.
  unfold T_flat, det4, cof00, cof01, cof02, cof03, det3. cbn. ring.
Qed.




(** ** The three outcomes on concrete poses *)

Example inv_T_01_script {la : LinAlg} :
  np_linalg_inv T_01_script = Some T_10_script.
Proof.
  exact (np_linalg_inv_rigid _ _ rigid_T_01_script inverse_T_01_script).
Qed.

Example flat_pose_raises {la : LinAlg} :
  getNewPosition_yellowPoint p_start theta_script T_flat = Raises_LinAlgError.
Proof.
  apply getNewPosition_raises_iff.
  exact (inv_diagonal_singular T_flat diagonal_T_flat det4_T_flat).
Qed.

(** A zero scale component does not raise: when the inversion returns the
    inverse of this pose, the array holds non-finite entries. *)
Example projective_pose_nonfinite {la : LinAlg} :
  np_linalg_inv T_projective
    = Some (Mat4 1 0 0 0  0 1 0 0  0 0 1 0  (-1) 0 0 1) ->
  getNewPosition_yellowPoint (Col3 (1 / 2) 0 0) PI T_projective =
  Returns NonFin NonFin NonFin.
Proof.
  intros E. unfold getNewPosition_yellowPoint. rewrite E.
  unfold cartesian, RotationAboutY, homogeneous, T_projective.
  rewrite cos_PI, sin_PI. compute_np.
  unfold np_div.
  repeat match goal with
         | |- context [Req_EM_T ?w 0] =>
             destruct (Req_EM_T w 0) as [_ | Hnz]; [| exfalso; apply Hnz; lra]
         end.
  reflexivity.
Qed.

(** ** Properties of [getNewPosition_yellowPoint] and [RotationAboutY] *)


(** C1, as stated, fails.  [T_pivot] is invertible, yet under the
    behaviour of the inversion that follows the elimination in double
    precision there ([binary64_third], [binary64_zero_pivot]) the call
    raises instead of returning the pipeline's quotients. *)
Lemma invertible_pose_raises_counterexample :
  ~ (invertible T_pivot ->
     exists T_inv,
       inverse_of T_pivot T_inv /\
       getNewPosition_yellowPoint (la := pivoting_linalg)
         p_start theta_script T_pivot
       = conjugation_pipeline p_start theta_script T_pivot T_inv).
Proof.
  intros H. destruct (H invertible_T_pivot) as (T_inv & _ & E).
  assert (Hraise : getNewPosition_yellowPoint (la := pivoting_linalg)
                     p_start theta_script T_pivot = Raises_LinAlgError).
  { apply getNewPosition_raises_iff. cbn [np_linalg_inv pivoting_linalg].
    unfold pivoting_inv.
    destruct (mat4_eq_dec T_pivot T_pivot) as [_ | Hne];
      [reflexivity | contradiction]. }
  rewrite Hraise in E. unfold conjugation_pipeline, cartesian in E.
  discriminate E.
Qed.

(** C1, amended.  For every point, angle and pose on which the inversion
    returns the inverse [T_10] of the pose, the call equals the
    conjugation pipeline of the specification: the point with a 1
    appended, multiplied by the inverse pose, the rotation and the pose,
    then the first three components divided by the fourth when that is
    not zero; when it is zero the entries are non-finite. *)
Theorem getNewPosition_is_conjugation_pipeline {la : LinAlg}
  (p : col3) (angle : R) (T_01 T_10 : mat4) :
  np_linalg_inv T_01 = Some T_10 ->
  inverse_of T_01 T_10 ->
  (c4_3 (spec_conjugate p angle T_01 T_10) <> 0 ->
   getNewPosition_yellowPoint p angle T_01 =
   Returns_fin (spec_divide (spec_conjugate p angle T_01 T_10))) /\
  (c4_3 (spec_conjugate p angle T_01 T_10) = 0 ->
   getNewPosition_yellowPoint p angle T_01 = Returns NonFin NonFin NonFin).
Proof.
  intros E _.
  assert (Hcode : getNewPosition_yellowPoint p angle T_01 =
                  cartesian (spec_conjugate p angle T_01 T_10)).
  { unfold getNewPosition_yellowPoint. rewrite E. cbv zeta.
    rewrite !matvec_matmul. reflexivity. }
  rewrite Hcode. unfold cartesian, np_div, Returns_fin, spec_divide.
  cbn [c3_0 c3_1 c3_2].
  destruct (Req_EM_T (c4_3 (spec_conjugate p angle T_01 T_10)) 0)
    as [Hz | Hnz];
    split; intros Hw; try reflexivity; contradiction.
Qed.

Lemma getNewPosition_is_conjugation_pipeline_witness :
  np_linalg_inv (LinAlg := exact_linalg) T_projective
    = Some (Mat4 1 0 0 0  0 1 0 0  0 0 1 0  (-1) 0 0 1) /\
  inverse_of T_projective (Mat4 1 0 0 0  0 1 0 0  0 0 1 0  (-1) 0 0 1) /\
  (c4_3 (spec_conjugate p_start theta_script T_projective
           (Mat4 1 0 0 0  0 1 0 0  0 0 1 0  (-1) 0 0 1)) <> 0 ->
   getNewPosition_yellowPoint (la := exact_linalg)
     p_start theta_script T_projective =
   Returns_fin
     (spec_divide
        (spec_conjugate p_start theta_script T_projective
           (Mat4 1 0 0 0  0 1 0 0  0 0 1 0  (-1) 0 0 1)))) /\
  (c4_3 (spec_conjugate p_start theta_script T_projective
           (Mat4 1 0 0 0  0 1 0 0  0 0 1 0  (-1) 0 0 1)) = 0 ->
   getNewPosition_yellowPoint (la := exact_linalg)
     p_start theta_script T_projective = Returns NonFin NonFin NonFin).
Proof.
  assert (Hinv : inverse_of T_projective
                   (Mat4 1 0 0 0  0 1 0 0  0 0 1 0  (-1) 0 0 1))
    by solve_inverse.
  assert (E : np_linalg_inv (LinAlg := exact_linalg) T_projective
              = Some (Mat4 1 0 0 0  0 1 0 0  0 0 1 0  (-1) 0 0 1))
    by exact (proj2 (exact_inv_Some _ _) Hinv).
  split; [exact E | split; [exact Hinv |]].
  exact (getNewPosition_is_conjugation_pipeline (la := exact_linalg)
           p_start theta_script T_projective _ E Hinv).
Defined.

(** C4.  [RotationAboutY theta] is, row by row, the matrix
    [[cos,0,sin,0],[0,1,0,0],[-sin,0,cos,0],[0,0,0,1]]; it is the
    right-handed rotation about y: it fixes the y-axis, and a quarter
    turn carries the z-axis onto the x-axis and the x-axis onto the
    negative z-axis. *)
Theorem RotationAboutY_standard (theta : R) :
  rows (RotationAboutY theta) = standard_rotation_y theta /\
  RotationAboutY theta @| axis_y = axis_y /\
  RotationAboutY (PI / 2) @| axis_z = axis_x /\
  RotationAboutY (PI / 2) @| axis_x = Col4 0 0 (-1) 1.
Proof.
  split; [reflexivity |].
  unfold RotationAboutY, axis_x, axis_y, axis_z. unfold_np.
  rewrite cos_PI2, sin_PI2.
  repeat split; apply Col4_eq; ring.
Qed.

(** C5.  For a rigid pose the inversion succeeds and the fourth component
    of [T_01 @ R_y @ T_10 @ p_tilde] is 1, so the three divisions are by 1
    and the call returns the first three components unchanged. *)
Theorem homogeneous_component_is_one {la : LinAlg}
  (p : col3) (angle : R) (T_01 : mat4) :
  rigid T_01 ->
  exists T_10,
    np_linalg_inv T_01 = Some T_10 /\
    c4_3 (T_01 @ RotationAboutY angle @ T_10 @| homogeneous p) = 1 /\
    getNewPosition_yellowPoint p angle T_01 =
    Returns_fin
      (drop_w (T_01 @ RotationAboutY angle @ T_10 @| homogeneous p)).
Proof.
  intros Hr. destruct (rigid_invertible T_01 Hr) as [B Hinv].
  pose proof (proj2 Hr) as Ha.
  exists B. split; [exact (np_linalg_inv_rigid T_01 B Hr Hinv) | split].
  - fold (motion angle T_01 B).
    rewrite (affine_matvec _ p (affine_motion angle T_01 B Ha Hinv)).
    reflexivity.
  - exact (getNewPosition_rigid p angle T_01 B Hr Hinv).
Qed.

Lemma homogeneous_component_is_one_witness :
  rigid T_01_script /\
  exists T_10,
    np_linalg_inv (LinAlg := exact_linalg) T_01_script = Some T_10 /\
    c4_3 (T_01_script @ RotationAboutY theta_script @ T_10
            @| homogeneous p_start) = 1 /\
    getNewPosition_yellowPoint (la := exact_linalg)
      p_start theta_script T_01_script =
    Returns_fin
      (drop_w (T_01_script @ RotationAboutY theta_script @ T_10
                 @| homogeneous p_start)).
Proof.
  assert (Hr : rigid T_01_script) by solve_rigid.
  split; [exact Hr |].
  exact (homogeneous_component_is_one p_start theta_script T_01_script Hr).
Defined.

(** C6.  For a rigid pose, a rotation by angle zero returns the point
    itself. *)
Theorem zero_angle_is_identity {la : LinAlg} (p : col3) (T_01 : mat4) :
  rigid T_01 ->
  getNewPosition_yellowPoint p 0 T_01 = Returns_fin p.
Proof.
  intros Hr. destruct (rigid_invertible T_01 Hr) as [B Hinv].
  pose proof (proj2 Hr) as Ha.
  rewrite (getNewPosition_rigid p 0 T_01 B Hr Hinv).
  rewrite (motion_0 T_01 B Hinv), matvec_eye.
  destruct p; reflexivity.
Qed.

Lemma zero_angle_is_identity_witness :
  rigid T_01_script /\
  getNewPosition_yellowPoint (la := exact_linalg)
    p_start 0 T_01_script = Returns_fin p_start.
Proof.
  assert (Hr : rigid T_01_script) by solve_rigid.
  split; [exact Hr |].
  exact (zero_angle_is_identity p_start T_01_script Hr).
Defined.





(** C7.  For a rigid pose, rotating by [theta] and then by [- theta]
    returns the original point. *)
Theorem rotate_then_unrotate {la : LinAlg}
  (p : col3) (theta : R) (T_01 : mat4) :
  rigid T_01 ->
  exists q,
    getNewPosition_yellowPoint p theta T_01 = Returns_fin q /\
    getNewPosition_yellowPoint q (- theta) T_01 = Returns_fin p.
Proof.
  intros Hr. destruct (rigid_invertible T_01 Hr) as [B Hinv].
  pose proof (proj2 Hr) as Ha.
  exists (drop_w (motion theta T_01 B @| homogeneous p)). split.
  - exact (getNewPosition_rigid p theta T_01 B Hr Hinv).
  - rewrite (getNewPosition_rigid _ (- theta) T_01 B Hr Hinv).
    rewrite <- (affine_matvec _ p (affine_motion theta T_01 B Ha Hinv)).
    rewrite <- matvec_matmul, (motion_plus _ _ T_01 B Hinv).
    replace (- theta + theta) with 0 by ring.
    rewrite (motion_0 T_01 B Hinv), matvec_eye.
    destruct p; reflexivity.
Qed.

Lemma rotate_then_unrotate_witness :
  rigid T_01_script /\
  exists q,
    getNewPosition_yellowPoint (la := exact_linalg)
      p_start theta_script T_01_script
      = Returns_fin q /\
    getNewPosition_yellowPoint (la := exact_linalg)
      q (- theta_script) T_01_script
      = Returns_fin p_start.
Proof.
  assert (Hr : rigid T_01_script) by solve_rigid.
  split; [exact Hr |].
  exact (rotate_then_unrotate p_start theta_script T_01_script Hr).
Defined.

(** C8.  For a rigid pose, [n] ticks with angle [theta] give what one call
    with angle [n * theta] gives, also when that angle is reduced by any
    whole number of turns. *)
Theorem ticks_is_one_rotation {la : LinAlg}
  (n : nat) (p : col3) (theta : R) (T_01 : mat4) :
  rigid T_01 ->
  ticks n p theta T_01 = getNewPosition_yellowPoint p (INR n * theta) T_01 /\
  forall k : Z,
    ticks n p theta T_01 =
    getNewPosition_yellowPoint p (INR n * theta + 2 * IZR k * PI) T_01.
Proof.
  intros Hr. destruct (rigid_invertible T_01 Hr) as [B Hinv].
  pose proof (proj2 Hr) as Ha.
  rewrite (ticks_rigid n p theta T_01 B Hr Hinv). split.
  - symmetry. exact (getNewPosition_rigid p _ T_01 B Hr Hinv).
  - intros k. rewrite (getNewPosition_rigid p _ T_01 B Hr Hinv).
    unfold motion. rewrite RotationAboutY_period. reflexivity.
Qed.

Lemma ticks_is_one_rotation_witness :
  rigid T_01_script /\
  ticks (la := exact_linalg) 3 p_start theta_script T_01_script =
    getNewPosition_yellowPoint (la := exact_linalg)
      p_start (INR 3 * theta_script) T_01_script /\
  forall k : Z,
    ticks (la := exact_linalg) 3 p_start theta_script T_01_script =
    getNewPosition_yellowPoint (la := exact_linalg)
      p_start (INR 3 * theta_script + 2 * IZR k * PI) T_01_script.
Proof.
  assert (Hr : rigid T_01_script) by solve_rigid.
  split; [exact Hr |].
  exact (ticks_is_one_rotation 3 p_start theta_script T_01_script Hr).
Defined.

(** C9.  With the identity matrix as pose the call is the plain y-axis
    rotation of [p]: the rotation matrix applied to the point. *)
Theorem identity_pose_is_plain_rotation {la : LinAlg} (p : col3) (theta : R) :
  getNewPosition_yellowPoint p theta eye4 = Returns_fin (rotate_y theta p) /\
  rotate_y theta p = drop_w (RotationAboutY theta @| homogeneous p).
Proof.
  assert (Hrot : rotate_y theta p
                 = drop_w (RotationAboutY theta @| homogeneous p)).
  { unfold rotate_y, drop_w, RotationAboutY, homogeneous. unfold_np.
    f_equal; ring. }
  split; [| exact Hrot].
  assert (Hr : rigid eye4) by solve_rigid.
  assert (Hinv : inverse_of eye4 eye4)
    by (split; apply matmul_eye_l).
  rewrite (getNewPosition_rigid p theta eye4 eye4 Hr Hinv).
  unfold motion. rewrite matmul_eye_l, matmul_eye_r, Hrot. reflexivity.
Qed.

(** C10.  [RotationAboutY theta] is a rigid homogeneous transform: its 3x3
    block is orthonormal with determinant 1, its last row and last column
    are [0,0,0,1], and it is invertible with inverse
    [RotationAboutY (- theta)], which is what [np.linalg.inv] returns. *)
Theorem RotationAboutY_is_rigid {la : LinAlg} (theta : R) :
  orthonormal_block (RotationAboutY theta) /\
  block_det (RotationAboutY theta) = 1 /\
  affine (RotationAboutY theta) /\
  no_translation (RotationAboutY theta) /\
  inverse_of (RotationAboutY theta) (RotationAboutY (- theta)) /\
  np_linalg_inv (RotationAboutY theta) = Some (RotationAboutY (- theta)).
Proof.
  pose proof (sin2_cos2 theta) as Hsc. unfold Rsqr in Hsc.
  assert (Hinv : inverse_of (RotationAboutY theta) (RotationAboutY (- theta))).
  { split; rewrite RotationAboutY_plus.
    - replace (theta + - theta) with 0 by ring. apply RotationAboutY_0.
    - replace (- theta + theta) with 0 by ring. apply RotationAboutY_0. }
  repeat match goal with |- _ /\ _ => split end.
  - unfold orthonormal_block, RotationAboutY; cbn. repeat split; nra.
  - unfold block_det, det3, RotationAboutY; cbn. nra.
  - apply affine_RotationAboutY.
  - unfold no_translation, RotationAboutY; cbn. auto.
  - exact Hinv.
  - exact (np_linalg_inv_rigid _ _ (rigid_RotationAboutY theta) Hinv).
Qed.

(** ** The first tick of the script, numerically *)

Lemma first_tick_exact {la : LinAlg} :
  getNewPosition_yellowPoint p_start theta_script T_01_script =
  Returns (Fin (-40 + 10 * cos (PI / 20)))
          (Fin (-10))
          (Fin (-20 - 10 * sin (PI / 20))).
Proof.
  rewrite (getNewPosition_rigid p_start theta_script T_01_script T_10_script
             rigid_T_01_script inverse_T_01_script).
  unfold Returns_fin, drop_w, motion, RotationAboutY, homogeneous,
    T_01_script, T_10_script, p_start, theta_script.
  compute_np.
  f_equal; f_equal; ring.
Qed.

Lemma PI_bounds : 31415926 / 10000000 < PI < 31415927 / 10000000.
Proof.
  pose proof (PI_2_3_7_ineq 4) as H.
  unfold sum_f_R0, tg_alt, PI_2_3_7_tg, Ratan_seq in H.
  simpl in H.
  lra.
Qed.

Lemma INR_fact_S (n : nat) : INR (fact (S n)) = INR (S n) * INR (fact n).
Proof. rewrite fact_simpl, mult_INR. reflexivity. Qed.

(** Evaluate the Taylor polynomials [sin_lb], [sin_ub], [cos_lb], [cos_ub]
    of the library at a rational point. *)
Ltac eval_approx H :=
  unfold sin_lb, sin_ub, cos_lb, cos_ub, sin_approx, cos_approx,
    sum_f_R0, sin_term, cos_term in H;
  cbn [Nat.mul Nat.add] in H;
  rewrite ?INR_fact_S in H;
  cbn [fact INR pow] in H.

Lemma sin_PI20_bounds :
  15643446 / 100000000 < sin (PI / 20) < 15643448 / 100000000.
Proof.
  pose proof PI_bounds as HPI.
  assert (Hlo : 15643446 / 100000000 < sin (15707963 / 100000000)).
  { assert (Hr : 0 <= 15707963 / 100000000 <= PI) by lra.
    destruct (SIN _ (proj1 Hr) (proj2 Hr)) as [H _].
    eval_approx H. lra. }
  assert (Hhi : sin (15707964 / 100000000) < 15643448 / 100000000).
  { assert (Hr : 0 <= 15707964 / 100000000 <= PI) by lra.
    destruct (SIN _ (proj1 Hr) (proj2 Hr)) as [_ H].
    eval_approx H. lra. }
  split.
  - apply Rlt_trans with (1 := Hlo).
    apply sin_increasing_1; lra.
  - apply Rlt_trans with (2 := Hhi).
    apply sin_increasing_1; lra.
Qed.

Lemma cos_PI20_bounds :
  98768833 / 100000000 < cos (PI / 20) < 98768835 / 100000000.
Proof.
  pose proof PI_bounds as HPI.
  assert (Hlo : 98768833 / 100000000 < cos (15707964 / 100000000)).
  { assert (Hr : - PI / 2 <= 15707964 / 100000000 <= PI / 2) by lra.
    destruct (COS _ (proj1 Hr) (proj2 Hr)) as [H _].
    eval_approx H. lra. }
  assert (Hhi : cos (15707963 / 100000000) < 98768835 / 100000000).
  { assert (Hr : - PI / 2 <= 15707963 / 100000000 <= PI / 2) by lra.
    destruct (COS _ (proj1 Hr) (proj2 Hr)) as [_ H].
    eval_approx H. lra. }
  split.
  - apply Rlt_trans with (1 := Hlo).
    apply cos_decreasing_1; lra.
  - apply Rlt_trans with (2 := Hhi).
    apply cos_decreasing_1; lra.
Qed.

Lemma Rabs_lt_between (x c e : R) : c - e < x < c + e -> Rabs (x - c) < e.
Proof. intros H. apply Rabs_def1; lra. Qed.

(** C2, as stated, fails: the first tick of the script does not land
    within 1 of (-36.9, -10.0, -17.0), let alone within 1e-6. *)
Lemma first_tick_stated_value_counterexample :
  ~ (exists (la : LinAlg) x y z,
       getNewPosition_yellowPoint (la := la) p_start theta_script T_01_script
         = Returns (Fin x) (Fin y) (Fin z) /\
       Rabs (x - (-369 / 10)) <= 1 /\
       Rabs (y - (-10)) <= 1 /\
       Rabs (z - (-17)) <= 1).
Proof.
  intros (la & x & y & z & E & Hx & _ & _).
  rewrite first_tick_exact in E. injection E as <- _ _.
  pose proof cos_PI20_bounds as Hc.
  revert Hx. unfold Rabs. destruct (Rcase_abs _); lra.
Qed.

(** C2, amended.  For the script's pose, point and angle [PI / 20] the
    call returns [(-40 + 10 cos (PI/20), -10, -20 - 10 sin (PI/20))], the
    value of the conjugation pipeline, which is (-30.123117, -10,
    -21.564345) to within 1e-6. *)
Theorem first_tick_value {la : LinAlg} :
  exists x z,
    getNewPosition_yellowPoint p_start theta_script T_01_script
      = Returns (Fin x) (Fin (-10)) (Fin z) /\
    conjugation_pipeline p_start theta_script T_01_script T_10_script
      = Returns (Fin x) (Fin (-10)) (Fin z) /\
    x = -40 + 10 * cos (PI / 20) /\
    z = -20 - 10 * sin (PI / 20) /\
    Rabs (x - (-30123117 / 1000000)) < 1 / 1000000 /\
    Rabs (z - (-21564345 / 1000000)) < 1 / 1000000.
Proof.
  exists (-40 + 10 * cos (PI / 20)), (-20 - 10 * sin (PI / 20)).
  pose proof cos_PI20_bounds as Hc. pose proof sin_PI20_bounds as Hs.
  split; [exact first_tick_exact | split].
  - rewrite <- first_tick_exact.
    unfold getNewPosition_yellowPoint, conjugation_pipeline.
    rewrite (np_linalg_inv_rigid _ _ rigid_T_01_script inverse_T_01_script).
    cbv zeta.
    rewrite !matvec_matmul. reflexivity.
  - repeat split; try reflexivity; apply Rabs_lt_between; lra.
Qed.

(** ** Further properties: geometry of the motion *)

Lemma col3_eta (p : col3) : Col3 (c3_0 p) (c3_1 p) (c3_2 p) = p.
Proof. destruct p; reflexivity. Qed.

Lemma act_eye (p : col3) : act eye4 p = p.
Proof. unfold act. rewrite matvec_eye. destruct p; reflexivity. Qed.

Lemma act_matmul (M N : mat4) (p : col3) :
  affine N -> act (M @ N) p = act M (act N p).
Proof.
  intros Ha. unfold act.
  rewrite matvec_matmul, (affine_matvec N p Ha) at 1. reflexivity.
Qed.

Lemma getNewPosition_act {la : LinAlg} (p : col3) (angle : R) (T B : mat4) :
  rigid T -> inverse_of T B ->
  getNewPosition_yellowPoint p angle T = Returns_fin (act (motion angle T B) p).
Proof. exact (getNewPosition_rigid p angle T B). Qed.

Lemma rigid_inverse_left (T : mat4) : rigid T -> rigid_inverse T @ T = eye4.
Proof.
  intros [(h00 & h11 & h22 & h01 & h02 & h12) (a0 & a1 & a2 & a3)].
  unfold rigid_inverse. unfold_np. rewrite a0, a1, a2, a3.
  apply Mat4_eq; lra.
Qed.

Lemma rigid_inverse_of (T : mat4) : rigid T -> inverse_of T (rigid_inverse T).
Proof.
  intros Hr. destruct (rigid_invertible T Hr) as [B HB].
  assert (E : rigid_inverse T = B).
  { rewrite <- (matmul_eye_r (rigid_inverse T)), <- (proj1 HB).
    rewrite <- matmul_assoc, (rigid_inverse_left T Hr). apply matmul_eye_l. }
  rewrite E. exact HB.
Qed.

Lemma rigid_rigid_inverse (T : mat4) : rigid T -> rigid (rigid_inverse T).
Proof.
  intros Hr. destruct (rigid_inverse_of T Hr) as [HTB _].
  destruct Hr as [_ (a0 & a1 & a2 & a3)].
  pose proof (f_equal m00 HTB) as e00. pose proof (f_equal m11 HTB) as e11.
  pose proof (f_equal m22 HTB) as e22. pose proof (f_equal m01 HTB) as e01.
  pose proof (f_equal m02 HTB) as e02. pose proof (f_equal m12 HTB) as e12.
  revert e00 e11 e22 e01 e02 e12.
  unfold rigid_inverse. unfold_np. intros e00 e11 e22 e01 e02 e12.
  unfold rigid, orthonormal_block, affine.
  cbn [m00 m01 m02 m03 m10 m11 m12 m13 m20 m21 m22 m23 m30 m31 m32 m33].
  repeat split; lra.
Qed.

Lemma act_isometry (M : mat4) (p q : col3) :
  rigid M -> dist2 (act M p) (act M q) = dist2 p q.
Proof.
  intros [(h00 & h11 & h22 & h01 & h02 & h12) _].
  unfold dist2, act, drop_w, homogeneous. unfold_np.
  set (dx := c3_0 p - c3_0 q). set (dy := c3_1 p - c3_1 q).
  set (dz := c3_2 p - c3_2 q).
  transitivity
    ((m00 M * m00 M + m10 M * m10 M + m20 M * m20 M) * (dx * dx) +
     (m01 M * m01 M + m11 M * m11 M + m21 M * m21 M) * (dy * dy) +
     (m02 M * m02 M + m12 M * m12 M + m22 M * m22 M) * (dz * dz) +
     2 * (m00 M * m01 M + m10 M * m11 M + m20 M * m21 M) * (dx * dy) +
     2 * (m00 M * m02 M + m10 M * m12 M + m20 M * m22 M) * (dx * dz) +
     2 * (m01 M * m02 M + m11 M * m12 M + m21 M * m22 M) * (dy * dz)).
  - subst dx dy dz. ring.
  - rewrite h00, h11, h22, h01, h02, h12. ring.
Qed.

Lemma motion_isometry (angle : R) (T : mat4) (p q : col3) :
  rigid T ->
  dist2 (act (motion angle T (rigid_inverse T)) p)
        (act (motion angle T (rigid_inverse T)) q) = dist2 p q.
Proof.
  intros Hr. pose proof (rigid_rigid_inverse T Hr) as HrB.
  unfold motion.
  rewrite !(act_matmul _ (rigid_inverse T)) by apply HrB.
  rewrite !(act_matmul T (RotationAboutY angle))
    by apply affine_RotationAboutY.
  rewrite (act_isometry T) by exact Hr.
  rewrite (act_isometry (RotationAboutY angle))
    by apply rigid_RotationAboutY.
  apply act_isometry. exact HrB.
Qed.

Lemma RotationAboutY_fixes_axis (theta t : R) :
  RotationAboutY theta @| Col4 0 t 0 1 = Col4 0 t 0 1.
Proof. unfold RotationAboutY. unfold_np. apply Col4_eq; ring. Qed.

Lemma motion_fixes_axis (angle t : R) (T B : mat4) :
  affine T -> inverse_of T B ->
  act (motion angle T B) (act T (Col3 0 t 0)) = act T (Col3 0 t 0).
Proof.
  intros Ha [_ HBT]. unfold act.
  rewrite <- (affine_matvec T (Col3 0 t 0) Ha).
  rewrite <- matvec_matmul. unfold motion.
  rewrite matmul_assoc, HBT, matmul_eye_r, matvec_matmul.
  unfold homogeneous; cbn [c3_0 c3_1 c3_2].
  rewrite RotationAboutY_fixes_axis. reflexivity.
Qed.

Lemma act_motion_plus (a b : R) (T B : mat4) (p : col3) :
  affine T -> inverse_of T B ->
  act (motion a T B) (act (motion b T B) p) = act (motion (a + b) T B) p.
Proof.
  intros Ha Hinv.
  rewrite <- (act_matmul _ _ p (affine_motion b T B Ha Hinv)).
  rewrite (motion_plus a b T B Hinv). reflexivity.
Qed.



(** ** Further properties: the callback and the video *)


Lemma loop_func_rigid {la : LinAlg} (theta : R) (T B : mat4) (s : scene) :
  rigid T -> inverse_of T B ->
  loop_func theta T s =
  let p := act (motion theta T B) (global_p s) in
  Tick_done (Scene p p (video_frames s ++ [p])).
Proof.
  intros Hr Hinv. unfold loop_func.
  rewrite (getNewPosition_act _ theta T B Hr Hinv).
  unfold Returns_fin. cbv zeta. rewrite col3_eta. reflexivity.
Qed.

(** The frames the video gains in [n] ticks from the point [p]. *)
Lemma run_rigid {la : LinAlg} (n : nat) (theta : R) (T B : mat4) (s : scene) :
  rigid T -> inverse_of T B ->
  run n theta T s =
  Tick_done
    (Scene (act (motion (INR n * theta) T B) (global_p s))
           (match n with
            | O => yellowPoint_pos s
            | S _ => act (motion (INR n * theta) T B) (global_p s)
            end)
           (video_frames s ++
              map (fun i => act (motion (INR (S i) * theta) T B) (global_p s))
                  (seq 0 n))).
Proof.
  intros Hr Hinv. pose proof (proj2 Hr) as Ha. revert s.
  induction n as [| n IH]; intros s.
  - cbn [run seq map INR]. rewrite Rmult_0_l, (motion_0 T B Hinv), act_eye.
    rewrite app_nil_r. destruct s; reflexivity.
  - cbn [run]. rewrite (loop_func_rigid theta T B s Hr Hinv).
    cbv beta iota zeta. rewrite IH. cbn [global_p yellowPoint_pos video_frames].
    assert (Hstep : forall m : nat,
               act (motion (INR m * theta) T B)
                   (act (motion theta T B) (global_p s))
               = act (motion (INR (S m) * theta) T B) (global_p s)).
    { intros m. rewrite (act_motion_plus _ _ T B _ Ha Hinv).
      rewrite S_INR.
      replace ((INR m + 1) * theta) with (INR m * theta + theta) by ring.
      reflexivity. }
    rewrite Hstep. f_equal. f_equal.
    + destruct n as [| n]; [| reflexivity].
      cbn [INR]. rewrite Rmult_1_l. reflexivity.
    + rewrite <- app_assoc. f_equal.
      cbn [seq map app]. f_equal.
      * cbn [INR]. rewrite Rmult_1_l. reflexivity.
      * rewrite <- seq_shift, map_map.
        apply map_ext. intros i. apply Hstep.
Qed.


Lemma nth_frames (f : nat -> col3) (l : list col3) (n i : nat) (d : col3) :
  (i < n)%nat ->
  nth (length l + i) (l ++ map f (seq 0 n)) d = f i.
Proof.
  intros Hi. rewrite app_nth2_plus.
  rewrite (nth_indep _ d (f 0%nat)) by (rewrite length_map, length_seq; exact Hi).
  rewrite map_nth, seq_nth by exact Hi. reflexivity.
Qed.

Ltac solve_affine := unfold affine; cbn; repeat split; lra.

Ltac solve_invertible B := exists B; solve_inverse.


(** ** Further properties, stated *)

(** X1.  For a rigid pose, rotating by [a] and then by [b] is rotating
    once by [a + b], and the two rotations may be done in either order. *)
Theorem rotation_angles_add {la : LinAlg} (p : col3) (a b : R) (T_01 : mat4) :
  rigid T_01 ->
  exists q q',
    getNewPosition_yellowPoint p a T_01 = Returns_fin q /\
    getNewPosition_yellowPoint p b T_01 = Returns_fin q' /\
    getNewPosition_yellowPoint q b T_01 =
      getNewPosition_yellowPoint p (a + b) T_01 /\
    getNewPosition_yellowPoint q' a T_01 =
      getNewPosition_yellowPoint q b T_01.
Proof.
  intros Hr. destruct (rigid_invertible T_01 Hr) as [B Hinv].
  pose proof (proj2 Hr) as Ha.
  exists (act (motion a T_01 B) p), (act (motion b T_01 B) p).
  rewrite !(getNewPosition_act _ _ T_01 B Hr Hinv).
  rewrite !(act_motion_plus _ _ T_01 B p Ha Hinv).
  rewrite (Rplus_comm b a). repeat split; reflexivity.
Qed.

Lemma rotation_angles_add_witness :
  rigid T_01_script /\
  exists q q',
    getNewPosition_yellowPoint (la := exact_linalg)
      p_start theta_script T_01_script
      = Returns_fin q /\
    getNewPosition_yellowPoint (la := exact_linalg)
      p_start 1 T_01_script = Returns_fin q' /\
    getNewPosition_yellowPoint (la := exact_linalg) q 1 T_01_script =
      getNewPosition_yellowPoint (la := exact_linalg)
        p_start (theta_script + 1) T_01_script /\
    getNewPosition_yellowPoint (la := exact_linalg)
      q' theta_script T_01_script =
      getNewPosition_yellowPoint (la := exact_linalg) q 1 T_01_script.
Proof.
  assert (Hr : rigid T_01_script) by solve_rigid.
  split; [exact Hr |].
  exact (rotation_angles_add p_start theta_script 1 T_01_script Hr).
Defined.

(** X2.  Only the angle modulo a full turn matters, for every pose: adding
    a whole number of turns changes neither the returned array nor whether
    the call raises. *)
Theorem angle_modulo_full_turn {la : LinAlg}
  (p : col3) (angle : R) (k : Z) (T_01 : mat4) :
  getNewPosition_yellowPoint p (angle + 2 * IZR k * PI) T_01 =
  getNewPosition_yellowPoint p angle T_01.
Proof.
  unfold getNewPosition_yellowPoint.
  rewrite RotationAboutY_period. reflexivity.
Qed.

(** X3.  For a rigid pose, every point of the local y-axis (the image
    under the pose of a point [(0, t, 0)]) is returned unchanged, whatever
    the angle. *)
Theorem local_y_axis_is_fixed {la : LinAlg} (t angle : R) (T_01 : mat4) :
  rigid T_01 ->
  getNewPosition_yellowPoint (act T_01 (Col3 0 t 0)) angle T_01 =
  Returns_fin (act T_01 (Col3 0 t 0)).
Proof.
  intros Hr. destruct (rigid_invertible T_01 Hr) as [B Hinv].
  rewrite (getNewPosition_act _ angle T_01 B Hr Hinv).
  rewrite (motion_fixes_axis angle t T_01 B (proj2 Hr) Hinv). reflexivity.
Qed.

Lemma local_y_axis_is_fixed_witness :
  rigid T_01_script /\
  getNewPosition_yellowPoint (la := exact_linalg)
    (act T_01_script (Col3 0 (-20) 0)) theta_script T_01_script =
  Returns_fin (act T_01_script (Col3 0 (-20) 0)).
Proof.
  assert (Hr : rigid T_01_script) by solve_rigid.
  split; [exact Hr |].
  exact (local_y_axis_is_fixed (-20) theta_script T_01_script Hr).
Defined.

(** X4.  For a rigid pose the call is an isometry: two points rotated by
    the same angle keep their distance. *)
Theorem rotation_is_isometry {la : LinAlg}
  (p q : col3) (angle : R) (T_01 : mat4) :
  rigid T_01 ->
  exists p' q',
    getNewPosition_yellowPoint p angle T_01 = Returns_fin p' /\
    getNewPosition_yellowPoint q angle T_01 = Returns_fin q' /\
    dist2 p' q' = dist2 p q.
Proof.
  intros Hr. pose proof (rigid_inverse_of T_01 Hr) as Hinv.
  exists (act (motion angle T_01 (rigid_inverse T_01)) p),
         (act (motion angle T_01 (rigid_inverse T_01)) q).
  rewrite !(getNewPosition_act _ angle T_01 _ Hr Hinv).
  repeat split. exact (motion_isometry angle T_01 p q Hr).
Qed.

Lemma rotation_is_isometry_witness :
  rigid T_01_script /\
  exists p' q',
    getNewPosition_yellowPoint (la := exact_linalg)
      p_start theta_script T_01_script
      = Returns_fin p' /\
    getNewPosition_yellowPoint (la := exact_linalg)
      endPoint theta_script T_01_script
      = Returns_fin q' /\
    dist2 p' q' = dist2 p_start endPoint.
Proof.
  assert (Hr : rigid T_01_script) by solve_rigid.
  split; [exact Hr |].
  exact (rotation_is_isometry p_start endPoint theta_script T_01_script Hr).
Defined.

(** X5.  For a rigid pose the point moves on a circle around the local
    y-axis: its distance to every point of that axis is unchanged. *)
Theorem distance_to_local_axis_preserved {la : LinAlg}
  (p : col3) (angle : R) (T_01 : mat4) :
  rigid T_01 ->
  exists p',
    getNewPosition_yellowPoint p angle T_01 = Returns_fin p' /\
    forall t, dist2 p' (act T_01 (Col3 0 t 0)) = dist2 p (act T_01 (Col3 0 t 0)).
Proof.
  intros Hr. pose proof (rigid_inverse_of T_01 Hr) as Hinv.
  exists (act (motion angle T_01 (rigid_inverse T_01)) p).
  split; [exact (getNewPosition_act p angle T_01 _ Hr Hinv) |].
  intros t.
  rewrite <- (motion_fixes_axis angle t T_01 _ (proj2 Hr) Hinv) at 1.
  exact (motion_isometry angle T_01 _ _ Hr).
Qed.

Lemma distance_to_local_axis_preserved_witness :
  rigid T_01_script /\
  exists p',
    getNewPosition_yellowPoint (la := exact_linalg)
      p_start theta_script T_01_script
      = Returns_fin p' /\
    forall t, dist2 p' (act T_01_script (Col3 0 t 0))
              = dist2 p_start (act T_01_script (Col3 0 t 0)).
Proof.
  assert (Hr : rigid T_01_script) by solve_rigid.
  split; [exact Hr |].
  exact (distance_to_local_axis_preserved p_start theta_script T_01_script Hr).
Defined.



(** X7.  For a rigid pose, [np.linalg.inv] at line 74 returns the closed
    form: the transposed rotation block, with the translation rotated back
    and negated. *)
Theorem inverse_of_rigid_pose {la : LinAlg} (T_01 : mat4) :
  rigid T_01 -> np_linalg_inv T_01 = Some (rigid_inverse T_01).
Proof.
  intros Hr.
  exact (np_linalg_inv_rigid _ _ Hr (rigid_inverse_of T_01 Hr)).
Qed.

Lemma inverse_of_rigid_pose_witness :
  rigid T_01_script /\
  np_linalg_inv (LinAlg := exact_linalg)
    T_01_script = Some (rigid_inverse T_01_script).
Proof.
  assert (Hr : rigid T_01_script) by solve_rigid.
  split; [exact Hr |].
  exact (inverse_of_rigid_pose T_01_script Hr).
Defined.

(** X8.  Rotation matrices compose by adding their angles, commute, have
    determinant 1 and repeat with period [2 PI]. *)
Theorem RotationAboutY_compose (a b : R) (k : Z) :
  RotationAboutY a @ RotationAboutY b = RotationAboutY (a + b) /\
  RotationAboutY a @ RotationAboutY b = RotationAboutY b @ RotationAboutY a /\
  det4 (RotationAboutY a) = 1 /\
  RotationAboutY (a + 2 * IZR k * PI) = RotationAboutY a.
Proof.
  repeat split.
  - apply RotationAboutY_plus.
  - rewrite !RotationAboutY_plus, (Rplus_comm a b). reflexivity.
  - pose proof (sin2_cos2 a) as Hsc. unfold Rsqr in Hsc.
    unfold RotationAboutY. unfold_np. nra.
  - apply RotationAboutY_period.
Qed.

(** X11.  With a rigid pose the callback never raises: [n] ticks add
    exactly [n] frames after the frames already recorded, the global [p]
    ends where [n] successive rotations put it, and from the first tick on
    the yellow point and the last frame show that same position. *)
Theorem run_adds_one_frame_per_tick {la : LinAlg}
  (n : nat) (theta : R) (T_01 : mat4) (s : scene) :
  rigid T_01 ->
  exists s',
    run n theta T_01 s = Tick_done s' /\
    ticks n (global_p s) theta T_01 = Returns_fin (global_p s') /\
    length (video_frames s') = (length (video_frames s) + n)%nat /\
    firstn (length (video_frames s)) (video_frames s') = video_frames s /\
    ((0 < n)%nat ->
       yellowPoint_pos s' = global_p s' /\
       last (video_frames s') (global_p s) = global_p s').
Proof.
  intros Hr. destruct (rigid_invertible T_01 Hr) as [B Hinv].
  pose proof (proj2 Hr) as Ha.
  eexists. split; [exact (run_rigid n theta T_01 B s Hr Hinv) |].
  cbn [global_p yellowPoint_pos video_frames].
  split; [exact (ticks_rigid n _ theta T_01 B Hr Hinv) | split; [| split]].
  - rewrite length_app, length_map, length_seq. reflexivity.
  - rewrite firstn_app, Nat.sub_diag, firstn_all. cbn [firstn].
    apply app_nil_r.
  - intros Hn. destruct n as [| n]; [inversion Hn |]. split; [reflexivity |].
    rewrite seq_S, map_app, app_assoc. cbn [map].
    rewrite last_last. reflexivity.
Qed.

Lemma run_adds_one_frame_per_tick_witness :
  rigid T_01_script /\
  exists s',
    run (la := exact_linalg)
      3 theta_script T_01_script scene_start = Tick_done s' /\
    ticks (la := exact_linalg) 3 (global_p scene_start) theta_script T_01_script
      = Returns_fin (global_p s') /\
    length (video_frames s') = (length (video_frames scene_start) + 3)%nat /\
    firstn (length (video_frames scene_start)) (video_frames s')
      = video_frames scene_start /\
    ((0 < 3)%nat ->
       yellowPoint_pos s' = global_p s' /\
       last (video_frames s') (global_p scene_start) = global_p s').
Proof.
  assert (Hr : rigid T_01_script) by solve_rigid.
  split; [exact Hr |].
  exact (run_adds_one_frame_per_tick 3 theta_script T_01_script scene_start Hr).
Defined.

(** X12.  With a rigid pose, the [i]-th frame added by a run shows the
    starting point rotated by [(i + 1) * theta]: the frame is taken after
    the position is updated, not before. *)
Theorem video_frame_shows_rotation {la : LinAlg}
  (n i : nat) (theta : R) (T_01 : mat4) (s : scene) (d : col3) :
  rigid T_01 -> (i < n)%nat ->
  exists s',
    run n theta T_01 s = Tick_done s' /\
    getNewPosition_yellowPoint (global_p s) (INR (S i) * theta) T_01 =
    Returns_fin (nth (length (video_frames s) + i) (video_frames s') d).
Proof.
  intros Hr Hi. destruct (rigid_invertible T_01 Hr) as [B Hinv].
  pose proof (proj2 Hr) as Ha.
  eexists. split; [exact (run_rigid n theta T_01 B s Hr Hinv) |].
  cbn [video_frames]. rewrite nth_frames by exact Hi.
  exact (getNewPosition_act _ _ T_01 B Hr Hinv).
Qed.

Lemma video_frame_shows_rotation_witness :
  rigid T_01_script /\ (1 < 3)%nat /\
  exists s',
    run (la := exact_linalg)
      3 theta_script T_01_script scene_start = Tick_done s' /\
    getNewPosition_yellowPoint (la := exact_linalg)
      (global_p scene_start) (INR 2 * theta_script) T_01_script =
    Returns_fin
      (nth (length (video_frames scene_start) + 1) (video_frames s') p_start).
Proof.
  assert (Hr : rigid T_01_script) by solve_rigid.
  assert (Hi : (1 < 3)%nat) by lia.
  split; [exact Hr | split; [exact Hi |]].
  exact (video_frame_shows_rotation
           3 1 theta_script T_01_script scene_start p_start Hr Hi).
Defined.






(** X15.  With a pose of identity orientation and origin [c] (the script's
    pose is the one with origin [startPoint]) the call rotates [p - c]
    about the y-axis and adds [c] back: the y-coordinate is unchanged and
    the point turns about the vertical line through [c]. *)
Theorem translated_pose_rotates_about_origin {la : LinAlg}
  (p c : col3) (theta : R) :
  getNewPosition_yellowPoint p theta (translation c) =
  Returns_fin
    (Col3 (c3_0 c + (cos theta * (c3_0 p - c3_0 c)
                     + sin theta * (c3_2 p - c3_2 c)))
          (c3_1 p)
          (c3_2 c + (- sin theta * (c3_0 p - c3_0 c)
                     + cos theta * (c3_2 p - c3_2 c)))) /\
  T_01_script = translation startPoint.
Proof.
  split; [| reflexivity].
  destruct c as [cx cy cz], p as [px py pz].
  assert (Hr : rigid (translation (Col3 cx cy cz)))
    by (unfold rigid, orthonormal_block, affine, translation; cbn;
        repeat split; lra).
  assert (Hinv : inverse_of (translation (Col3 cx cy cz))
                            (translation (Col3 (- cx) (- cy) (- cz)))).
  { unfold inverse_of, translation, matmul, eye4; cbn.
    split; apply Mat4_eq; ring. }
  rewrite (getNewPosition_act _ theta _ _ Hr Hinv).
  unfold Returns_fin, act, drop_w, motion, RotationAboutY, homogeneous,
    translation.
  compute_np. f_equal; f_equal; ring.
Qed.
